(** * Pack container and serializer registry of the [ml_utils.io] package

    A shallow embedding of [ml_utils/io/serializers/_registry.py] and of the
    Pack container exercised by [tests/io_tests/pack_tests.py], with the
    properties of the serializer dispatch, of the content-addressed object
    store and of the slot index. *)

From Stdlib Require Import Ascii.
From stdpp Require Import base option list strings gmap.

(** ** Data *)

(** Python [bytes] values: the output of a serializer and the payload of
    an entry of the object store. *)
Abbreviation bytes := string.

(** Keys handed to the Pack by callers: [None] stands for Python's [None],
    [Some s] for the string [s]. *)
Abbreviation slot_key := (option string).

(** The exceptions raised by the registry and by the Pack.  [KeyError] is the
    built-in raised by a failed subscript of a dictionary. *)
Inductive exc : Type :=
| KeyError (key : string)
| UnknownObjectType
| UnknownSerializer (serializer_id : string)
| SlotKeyError
| PackObjectNotFound (pack_object : string)
| MLIOPackSlotWrongChecksum
| MLIODependenciesNotSatisfied (dependency_id : string)
| DecodeError.

(** A computation that returns a value or raises. *)
Abbreviation result A := (exc + A)%type.

Definition raise {A : Type} (e : exc) : result A := inl e.
Definition ok {A : Type} (a : A) : result A := inr a.

Definition result_bind {A B : Type} (m : result A) (k : A → result B) : result B :=
  match m with
  | inl e => inl e
  | inr a => k a
  end.

Notation "'try' x := m 'in' k" := (result_bind m (λ x, k))
  (at level 10, x binder, m at level 100, k at level 200,
   format "'[v' 'try'  x  :=  m  'in' '/' k ']'").

(** ** collections.OrderedDict with string keys

    An insertion-ordered dictionary: the list holds the items in iteration
    order, every key at most once. *)
Section ordered_dict.
Context {V : Type}.

Definition OrderedDict : Type := list (string * V).

(** [k in d] *)
Fixpoint od_contains (k : string) (d : OrderedDict) : bool :=
  match d with
  | [] => false
  | (k', _) :: d' => if decide (k = k') then true else od_contains k d'
  end.

(** [d.get(k)] *)
Fixpoint od_get (k : string) (d : OrderedDict) : option V :=
  match d with
  | [] => None
  | (k', v) :: d' => if decide (k = k') then Some v else od_get k d'
  end.

(** [d[k]], which raises [KeyError] on a missing key *)
Definition od_getitem (k : string) (d : OrderedDict) : result V :=
  match od_get k d with
  | Some v => ok v
  | None => raise (KeyError k)
  end.

(** [d[k] = v]: a key already present keeps its position and takes the new
    value, a new key goes to the end. *)
Fixpoint od_setitem (k : string) (v : V) (d : OrderedDict) : OrderedDict :=
  match d with
  | [] => [(k, v)]
  | (k', v') :: d' =>
      if decide (k = k') then (k', v) :: d' else (k', v') :: od_setitem k v d'
  end.

(** [d.keys()] and [d.values()], in iteration order *)
Definition od_keys (d : OrderedDict) : list string := d.*1.
Definition od_values (d : OrderedDict) : list V := d.*2.
End ordered_dict.

Global Arguments OrderedDict : clear implicits.

(** ** The serializer interface

    What the registry and the Pack ask of a serializer: the methods of
    [ml_utils.io.serializers.SerializerBase].  [deserialize] returns [None]
    where the Python method raises on bytes it cannot decode. *)
Class SerializerBase (S Obj : Type) : Type := {
  serializer_id : S → string;
  can_process : S → Obj → bool;
  serialize : S → Obj → bytes;
  deserialize : S → bytes → option Obj
}.

(** ** ml_utils/io/serializers/_registry.py *)
Section registry.
Context {S Obj : Type} `{!SerializerBase S Obj}.

(** The state of the module global [__serializers_registry]. *)
Definition registry : Type := OrderedDict S.

(** The registry of a freshly imported module: [OrderedDict()]. *)
Definition empty_registry : registry := [].

(** The loop of [find_suitable_serializer] over [registry.values()]. *)
Fixpoint first_suitable (obj : Obj) (serializers : list S) : option S :=
  match serializers with
  | [] => None
  | serializer :: rest =>
      if can_process serializer obj then Some serializer
      else first_suitable obj rest
  end.

Definition find_suitable_serializer (obj : Obj) (reg : registry) : result S :=
  match first_suitable obj (od_values reg) with
  | Some serializer => ok serializer
  | None => raise UnknownObjectType
  end.

Definition get_serializer_by_id (id : string) (reg : registry) : result S :=
  if od_contains id reg then od_getitem id reg
  else raise (UnknownSerializer id).

(** [register_serializer] returns the serializer and leaves the updated
    registry behind. *)
Definition register_serializer (serializer : S) (reg : registry) : S * registry :=
  (serializer, od_setitem (serializer_id serializer) serializer reg).

(** The registry after the calls [register_serializer s] for the [s] of
    [calls], from first to last, on a fresh registry. *)
Definition registry_of (calls : list S) : registry :=
  fold_left (λ reg s, (register_serializer s reg).2) calls empty_registry.

(** A serializer that does not accept the object. *)
Definition rejects (obj : Obj) (serializer : S) : Prop :=
  can_process serializer obj = false.

(** Every item of a registry is filed under the id its serializer reports,
    and no id occurs twice. *)
Definition registry_wf (reg : registry) : Prop :=
  NoDup (od_keys reg) ∧ Forall (λ item, serializer_id item.2 = item.1) reg.

(** The ids of a list of calls in the order of their first occurrence. *)
Fixpoint first_occurrences (seen : list string) (ids : list string) : list string :=
  match ids with
  | [] => []
  | id :: rest =>
      if decide (id ∈ seen) then first_occurrences seen rest
      else id :: first_occurrences (id :: seen) rest
  end.
End registry.

Global Arguments registry : clear implicits.

(** ** The Pack container

    [mlio/io/pack.py] and its helpers are not part of the sources at hand;
    the definitions of this part follow the design document of the package
    and the behaviour pinned down by [tests/io_tests/pack_tests.py]. *)

(** Modelled from the spec: the digest functions of the Pack, which are not
    in the sources.  [content_hash] names the object-store entry of a
    payload, [checksum] is the integrity digest kept in the slot and
    recomputed by [load]. *)
Class Digest : Type := {
  content_hash : bytes → string;
  checksum : bytes → string
}.

(** Modelled from the spec: the Dependency Descriptor, a module identifier
    with a version constraint, whose class is not in the sources. *)
Record ContextDependency : Type := {
  dep_module : string;
  dep_constraint : string
}.

(** Modelled from the spec: the stable id under which a descriptor is
    attached to a slot, so that equal constraints on one module collapse. *)
Definition dependency_id (d : ContextDependency) : string :=
  "module-version:" +:+ dep_module d +:+ dep_constraint d.

(** Modelled from the spec: the runtime environment a descriptor is checked
    against.  [get_installed_module_version] is the external version query
    ([None] when the module cannot be located), [version_satisfies v c]
    evaluates the constraint [c] on the installed version [v]. *)
Record Environment : Type := {
  get_installed_module_version : string → option string;
  version_satisfies : string → string → bool
}.

(** Modelled from the spec: [is_satisfied] of a descriptor; a module that
    is absent leaves the dependency unsatisfied. *)
Definition is_satisfied (env : Environment) (d : ContextDependency) : bool :=
  match get_installed_module_version env (dep_module d) with
  | Some v => version_satisfies env v (dep_constraint d)
  | None => false
  end.

(** The first descriptor of a slot, in insertion order, that the environment
    does not satisfy. *)
Fixpoint first_unsatisfied (env : Environment) (deps : list ContextDependency)
  : option ContextDependency :=
  match deps with
  | [] => None
  | d :: rest => if is_satisfied env d then first_unsatisfied env rest else Some d
  end.

(** Modelled from the spec: a Slot of the index, the class of which is not in
    the sources. *)
Record Slot : Type := {
  pack_object : string;
  slot_checksum : string;
  slot_serializer_id : string;
  dependencies : OrderedDict ContextDependency
}.

(** Modelled from the spec: an entry of the object store.  [erase] marks an
    entry as empty and keeps its name; an erased entry reads as a payload of
    length zero. *)
Inductive entry : Type :=
| Live (payload : bytes)
| Erased.

Definition entry_payload (e : entry) : bytes :=
  match e with
  | Live data => data
  | Erased => ""
  end.

(** Modelled from the spec: an open Pack, the slot index and the object
    store it keeps in its stream.  The manifest's two timestamps take no part
    in the operations below and are left out. *)
Record Pack : Type := {
  slots : gmap (option string) Slot;
  objects : gmap string entry
}.

(** Modelled from the spec: the Pack opened on a new, empty stream. *)
Definition empty_pack : Pack := {| slots := ∅; objects := ∅ |}.

(** *** The object store *)

(** Modelled from the spec: [list_entries], the identifiers of the entries
    with a non-empty payload ([Pack._existing_pack_objects] of the tests). *)
Definition list_entries (store : gmap string entry) : gset string :=
  dom (filter (λ ne, entry_payload ne.2 ≠ "") store).

(** Modelled from the spec: [put], which writes a payload under its content
    hash unless an entry of that hash is already listed. *)
Definition put `{!Digest} (data : bytes) (store : gmap string entry)
  : string * gmap string entry :=
  let hash := content_hash data in
  if decide (hash ∈ list_entries store) then (hash, store)
  else (hash, <[hash := Live data]> store).

(** Modelled from the spec: [get], which fails on a name that does not exist
    and on an erased entry. *)
Definition get (hash : string) (store : gmap string entry) : result bytes :=
  match store !! hash with
  | Some (Live data) => ok data
  | Some Erased | None => raise (PackObjectNotFound hash)
  end.

(** Modelled from the spec: [erase], which marks the entry as empty and
    leaves its name in the container. *)
Definition erase (hash : string) (store : gmap string entry) : gmap string entry :=
  alter (λ _, Erased) hash store.

(** The entry names that some slot of the index refers to. *)
Definition referenced_objects (index : gmap (option string) Slot) : gset string :=
  map_img (pack_object <$> index).

(** *** The operations of an open Pack *)
Section pack.
Context {S Obj : Type} `{!SerializerBase S Obj} `{!Digest}.

(** Modelled from the spec: [Pack.has_slot], also behind [key in pack]. *)
Definition has_slot (key : slot_key) (p : Pack) : bool :=
  bool_decide (is_Some (slots p !! key)).

Definition contains (key : slot_key) (p : Pack) : bool := has_slot key p.

(** [Pack._existing_pack_objects] *)
Definition existing_pack_objects (p : Pack) : gset string :=
  list_entries (objects p).

(** Modelled from the spec: [Pack.dump].  The key is checked first, then a
    serializer is resolved, the object encoded, the payload stored under
    its hash and the slot recorded with an empty dependency set.  The one
    failure on the key is the duplicate: a key that is [None] or the empty
    string is taken like any other. *)
Definition dump (reg : registry S) (key : slot_key) (obj : Obj) (p : Pack)
  : result Pack :=
  if has_slot key p then raise SlotKeyError
  else
    try serializer := find_suitable_serializer obj reg in
    let data := serialize serializer obj in
    let '(hash, store) := put data (objects p) in
    let slot := {| pack_object := hash;
                   slot_checksum := checksum data;
                   slot_serializer_id := serializer_id serializer;
                   dependencies := [] |} in
    ok {| slots := <[key := slot]> (slots p); objects := store |}.

(** Modelled from the spec: the two checks of [Pack.load] that come before
    decoding: the checksum of the fetched bytes, then the dependencies.  It
    returns the slot and the verified bytes. *)
Definition load_verified (env : Environment) (key : slot_key) (p : Pack)
  : result (Slot * bytes) :=
  match slots p !! key with
  | None => raise SlotKeyError
  | Some slot =>
      try data := get (pack_object slot) (objects p) in
      if decide (checksum data = slot_checksum slot) then
        match first_unsatisfied env (od_values (dependencies slot)) with
        | Some d => raise (MLIODependenciesNotSatisfied (dependency_id d))
        | None => ok (slot, data)
        end
      else raise MLIOPackSlotWrongChecksum
  end.

(** Modelled from the spec: [Pack.load], which resolves the serializer by
    its id and decodes only after both checks have passed. *)
Definition load (reg : registry S) (env : Environment) (key : slot_key) (p : Pack)
  : result Obj :=
  try verified := load_verified env key p in
  try serializer := get_serializer_by_id (slot_serializer_id verified.1) reg in
  match deserialize serializer verified.2 with
  | Some obj => ok obj
  | None => raise DecodeError
  end.

(** Modelled from the spec: [Pack.remove].  It deletes the slot and erases
    the entry the slot referred to.  The design document words the erasure
    as unconditional; [test_dump_same_object_and_remove_one_slot] loads a
    slot after the removal of another slot of the same content, and
    [test_remove_dangling_slot_objects] reads a payload of length zero
    after the removal of the only slot of a content, so the entry is erased
    exactly when no remaining slot refers to it. *)
Definition remove (key : slot_key) (p : Pack) : result Pack :=
  match slots p !! key with
  | None => raise SlotKeyError
  | Some slot =>
      let index := delete key (slots p) in
      let store :=
        if decide (pack_object slot ∈ referenced_objects index) then objects p
        else erase (pack_object slot) (objects p) in
      ok {| slots := index; objects := store |}
  end.

(** Modelled from the spec: [Pack.remove] read to the letter of the design
    document, erasing the entry without a look at the other slots.  It is
    kept for comparison with [remove]. *)
Definition remove_unchecked (key : slot_key) (p : Pack) : result Pack :=
  match slots p !! key with
  | None => raise SlotKeyError
  | Some slot =>
      ok {| slots := delete key (slots p);
            objects := erase (pack_object slot) (objects p) |}
  end.

(** The listed entries that no slot refers to. *)
Definition dangling_pack_objects (p : Pack) : gset string :=
  existing_pack_objects p ∖ referenced_objects (slots p).

(** Modelled from the spec: the compaction pass
    [Pack._cleanup_dangling_pack_objects], which deletes the dangling
    entries and returns their identifiers. *)
Definition cleanup_dangling_pack_objects (p : Pack) : list string * Pack :=
  let removed := dangling_pack_objects p in
  (elements removed,
   {| slots := slots p;
      objects := filter (λ ne, ne.1 ∉ removed) (objects p) |}).

(** The write of [test_load_invalid_hash] on the underlying archive:
    [pck._zip_fh.writestr(name, data)]. *)
Definition writestr (name : string) (data : bytes) (p : Pack) : Pack :=
  {| slots := slots p; objects := <[name := Live data]> (objects p) |}.

(** The read of [test_remove_dangling_slot_objects] on the underlying
    archive: [pck._zip_fh.read(name)], [None] for a missing name. *)
Definition zip_read (name : string) (p : Pack) : option bytes :=
  entry_payload <$> objects p !! name.

(** The injection of [test_load_unsatisfied_dependencies]:
    [pck.slots_info[key].dependencies[dep.dependency_id()] = dep]. *)
Definition inject_dependency (key : slot_key) (d : ContextDependency) (p : Pack)
  : Pack :=
  {| slots :=
       alter (λ slot, {| pack_object := pack_object slot;
                         slot_checksum := slot_checksum slot;
                         slot_serializer_id := slot_serializer_id slot;
                         dependencies :=
                           od_setitem (dependency_id d) d (dependencies slot) |})
             key (slots p);
     objects := objects p |}.

(** The calls a client makes on an open Pack. *)
Inductive call : Type :=
| Dump (key : slot_key) (obj : Obj)
| Remove (key : slot_key)
| Cleanup.

(** A call that raises leaves the Pack as it was. *)
Definition run_call (reg : registry S) (c : call) (p : Pack) : Pack :=
  match c with
  | Dump key obj => match dump reg key obj p with inr p' => p' | inl _ => p end
  | Remove key => match remove key p with inr p' => p' | inl _ => p end
  | Cleanup => (cleanup_dangling_pack_objects p).2
  end.

(** The Pack after a sequence of calls on a new stream. *)
Definition run (reg : registry S) (calls : list call) : Pack :=
  fold_left (λ p c, run_call reg c p) calls empty_pack.

(** The store holds no other payload under the hash of [data]: writing
    [data] meets no hash collision. *)
Definition collision_free (data : bytes) (store : gmap string entry) : Prop :=
  ∀ other, store !! content_hash data = Some (Live other) → other ≠ "" → other = data.

(** What the calls keep true of a Pack: every slot refers to an entry that
    has not been erased, and every payload is stored under its own content
    hash. *)
Definition pack_wf (p : Pack) : Prop :=
  (∀ key slot, slots p !! key = Some slot →
     ∃ data, objects p !! pack_object slot = Some (Live data)) ∧
  (∀ name data, objects p !! name = Some (Live data) → content_hash data = name).
End pack.

(** ** A concrete instance

    Serializers given by their four methods, a small universe of objects,
    and digests without collisions, on which the operations can be run. *)
Record Codec (Obj : Type) : Type := {
  codec_id : string;
  codec_accepts : Obj → bool;
  codec_encode : Obj → bytes;
  codec_decode : bytes → option Obj
}.

Global Arguments codec_id {Obj} _.
Global Arguments codec_accepts {Obj} _ _.
Global Arguments codec_encode {Obj} _ _.
Global Arguments codec_decode {Obj} _ _.

Global Instance codec_serializer (Obj : Type) : SerializerBase (Codec Obj) Obj := {
  serializer_id := codec_id;
  can_process := codec_accepts;
  serialize := codec_encode;
  deserialize := codec_decode
}.

Module Fixtures.
Inductive pyobj : Type :=
| PyStr (s : string)
| PyBool (b : bool)
| PyOther.

Definition str_codec : Codec pyobj :=
  {| codec_id := "str";
     codec_accepts := λ o, match o with PyStr _ => true | _ => false end;
     codec_encode := λ o, match o with PyStr s => "s" +:+ s | _ => "" end;
     codec_decode := λ b, match b with String "s"%char s => Some (PyStr s) | _ => None end |}.

Definition bool_codec : Codec pyobj :=
  {| codec_id := "bool";
     codec_accepts := λ o, match o with PyBool _ => true | _ => false end;
     codec_encode := λ o, match o with PyBool true => "b1" | _ => "b0" end;
     codec_decode := λ b, if decide (b = "b1") then Some (PyBool true)
                          else if decide (b = "b0") then Some (PyBool false)
                          else None |}.

(** A second serializer registered under the id of [str_codec], which
    accepts every object. *)
Definition any_codec : Codec pyobj :=
  {| codec_id := "str";
     codec_accepts := λ _, true;
     codec_encode := λ o, match o with PyStr s => "s" +:+ s | PyBool _ => "b" | PyOther => "o" end;
     codec_decode := λ _, Some PyOther |}.

Definition reg : registry (Codec pyobj) := registry_of [str_codec; bool_codec].

Global Instance digest : Digest :=
  {| content_hash := λ data, "h" +:+ data +:+ ".slot";
     checksum := λ data, "c" +:+ data |}.

Definition obj1k : pyobj := PyStr "one thousand".
Definition obj2k : pyobj := PyStr "two thousand".
Definition obj1k_hash : string := content_hash (serialize str_codec obj1k).
Definition obj2k_hash : string := content_hash (serialize str_codec obj2k).

(** An environment with no module installed, and the one mocked in
    [test_load_unsatisfied_dependencies], where [moduleone] is at 2.1.0. *)
Definition bare_env : Environment :=
  {| get_installed_module_version := λ _, None;
     version_satisfies := λ v c, bool_decide ("==" +:+ v = c) |}.

Definition mocked_env : Environment :=
  {| get_installed_module_version :=
       λ m, if decide (m = "moduleone") then Some "2.1.0" else None;
     version_satisfies := λ v c, bool_decide ("==" +:+ v = c) |}.

Definition moduleone_dep : ContextDependency :=
  {| dep_module := "moduleone"; dep_constraint := "==1.1.0" |}.

Definition slot1 : slot_key := Some "slot1".
Definition slot2 : slot_key := Some "slot2".

(** The Pack of [test_load_valid], with two slots of different content, and
    the Pack of [test_dump_same_object_and_remove_one_slot] before its call
    of [remove], with two slots of one content. *)
Definition two_objects_pack : Pack := run reg [Dump slot1 obj1k; Dump slot2 obj2k].
Definition shared_object_pack : Pack := run reg [Dump slot1 obj1k; Dump slot2 obj1k].

End Fixtures.

(** * Properties *)

(** ** Insertion-ordered dictionaries *)
Section ordered_dict_facts.
Context {V : Type}.
Implicit Types (d : OrderedDict V) (k : string) (v : V).

Lemma od_get_None k d : od_get k d = None ↔ k ∉ od_keys d.
Proof.
  unfold od_keys. induction d as [|[k' v'] d IH]; simpl.
  - split; [intros _; apply not_elem_of_nil | done].
  - rewrite not_elem_of_cons, <-IH. case_decide; [|tauto].
    split; [done | tauto].
Qed.

Lemma od_get_is_Some k d : is_Some (od_get k d) ↔ k ∈ od_keys d.
Proof.
  rewrite <-not_eq_None_Some, od_get_None.
  split; [apply dec_stable | auto].
Qed.

Lemma od_contains_true k d : od_contains k d = true ↔ k ∈ od_keys d.
Proof.
  unfold od_keys. induction d as [|[k' v'] d IH]; simpl.
  - split; [done | by intros ?%elem_of_nil].
  - rewrite elem_of_cons, <-IH. case_decide; tauto.
Qed.

Lemma od_contains_false k d : od_contains k d = false ↔ k ∉ od_keys d.
Proof. rewrite <-od_contains_true. by destruct (od_contains k d). Qed.

Lemma od_get_elem_of k v d : od_get k d = Some v → (k, v) ∈ d.
Proof.
  induction d as [|[k' v'] d IH]; simpl; [done|].
  case_decide; intros; simplify_eq; [left | right; auto].
Qed.

Lemma od_get_setitem k k' v d :
  od_get k' (od_setitem k v d) = if decide (k' = k) then Some v else od_get k' d.
Proof.
  induction d as [|[k0 v0] d IH]; simpl; [done|].
  destruct (decide (k = k0)) as [->|]; simpl; [|rewrite IH];
    repeat case_decide; congruence.
Qed.

Lemma od_setitem_absent k v d : k ∉ od_keys d → od_setitem k v d = d ++ [(k, v)].
Proof.
  unfold od_keys. induction d as [|[k' v'] d IH]; simpl; [done|].
  rewrite not_elem_of_cons. intros [? ?]. rewrite decide_False by done.
  by rewrite IH.
Qed.

(** Assignment to a key that is present replaces the value at the place of
    the key and leaves the rest of the list as it was. *)
Lemma od_setitem_present k v old d :
  od_get k d = Some old →
  ∃ pre post, d = pre ++ ((k, old) :: post) ∧ (k ∉ od_keys pre) ∧
              od_setitem k v d = pre ++ ((k, v) :: post).
Proof.
  unfold od_keys. induction d as [|[k' v'] d IH]; simpl; [done|].
  case_decide as Hk.
  - intros [= ->]. subst k'. exists [], d. split_and!; [done | apply not_elem_of_nil | done].
  - intros (pre & post & -> & Hpre & ->)%IH.
    exists ((k', v') :: pre), post. split_and!; [done | | done].
    simpl. rewrite not_elem_of_cons. done.
Qed.

Lemma od_keys_setitem_present k v d :
  k ∈ od_keys d → od_keys (od_setitem k v d) = od_keys d.
Proof.
  intros [old Hold]%od_get_is_Some.
  destruct (od_setitem_present k v old d Hold) as (pre & post & -> & _ & ->).
  unfold od_keys. by rewrite !fmap_app.
Qed.

Lemma od_keys_setitem k v d :
  od_keys (od_setitem k v d) =
    if decide (k ∈ od_keys d) then od_keys d else od_keys d ++ [k].
Proof.
  case_decide.
  - by apply od_keys_setitem_present.
  - rewrite od_setitem_absent by done. unfold od_keys. by rewrite fmap_app.
Qed.

Lemma od_keys_setitem_NoDup k v d :
  NoDup (od_keys d) → NoDup (od_keys (od_setitem k v d)).
Proof.
  intros Hnd. rewrite od_keys_setitem. case_decide; [done|].
  apply NoDup_app. split_and!; [done | | apply NoDup_singleton].
  intros x Hx ->%list_elem_of_singleton. done.
Qed.
End ordered_dict_facts.

(** ** The serializer registry *)
Section registry_facts.
Context {S Obj : Type} `{!SerializerBase S Obj}.
Implicit Types (reg : registry S) (calls : list S) (s : S) (obj : Obj).

Lemma first_suitable_Some obj (l : list S) s :
  first_suitable obj l = Some s ↔
  ∃ pre post, l = pre ++ s :: post ∧ Forall (rejects obj) pre ∧
              can_process s obj = true.
Proof.
  induction l as [|s0 l IH]; simpl.
  - split; [done|]. intros (pre & post & Hl & _). by destruct pre.
  - destruct (can_process s0 obj) eqn:Hs0.
    + split.
      * intros [= ->]. exists [], l. by split_and!.
      * intros ([|s1 pre] & post & Hl & Hpre & Hs); simplify_eq/=; [done|].
        apply Forall_cons in Hpre as [Hrej _]. unfold rejects in Hrej. congruence.
    + rewrite IH. split.
      * intros (pre & post & -> & Hpre & Hs).
        exists (s0 :: pre), post. split_and!; [done | by constructor | done].
      * intros ([|s1 pre] & post & Hl & Hpre & Hs); simplify_eq/=; [congruence|].
        apply Forall_cons in Hpre as [_ Hpre]. by exists pre, post.
Qed.

Lemma first_suitable_None obj (l : list S) :
  first_suitable obj l = None ↔ Forall (rejects obj) l.
Proof.
  induction l as [|s0 l IH]; simpl.
  - split; [by constructor | done].
  - rewrite Forall_cons. unfold rejects at 1.
    destruct (can_process s0 obj); [|tauto].
    split; [done | by intros [? _]].
Qed.

Lemma registry_of_snoc calls s :
  registry_of (calls ++ [s]) = od_setitem (serializer_id s) s (registry_of calls).
Proof. unfold registry_of. by rewrite fold_left_app. Qed.

Lemma od_setitem_filed s reg :
  Forall (λ item : string * S, serializer_id item.2 = item.1) reg →
  Forall (λ item : string * S, serializer_id item.2 = item.1)
         (od_setitem (serializer_id s) s reg).
Proof.
  induction 1 as [|[k v] reg Hk Hreg IH]; simpl.
  - by repeat constructor.
  - case_decide; constructor; simpl in *; auto.
Qed.

Lemma registry_of_wf calls : registry_wf (registry_of calls).
Proof.
  induction calls as [|s calls IH] using rev_ind.
  - split; simpl; constructor.
  - rewrite registry_of_snoc. destruct IH as [Hnd Hid]. split.
    + by apply od_keys_setitem_NoDup.
    + by apply od_setitem_filed.
Qed.

Lemma registry_wf_get_own reg s :
  registry_wf reg → s ∈ od_values reg → od_get (serializer_id s) reg = Some s.
Proof.
  intros [Hnd Hid]. unfold od_values, od_keys in *.
  induction reg as [|[k v] reg IH]; simpl; [by intros ?%elem_of_nil|].
  apply NoDup_cons in Hnd as [Hk Hnd]. apply Forall_cons in Hid as [Hkv Hid].
  simpl in *. rewrite elem_of_cons. intros [->|Hin].
  - by rewrite decide_True.
  - rewrite decide_False; [by apply IH|].
    intros Heq. apply Hk. rewrite <-Heq.
    apply list_elem_of_fmap in Hin as ([k' v'] & -> & Hin).
    rewrite Forall_forall in Hid. rewrite (Hid _ Hin). simpl.
    apply list_elem_of_fmap. by exists (k', v').
Qed.

(** The serializer filed under an id is the one of the last call with that
    id. *)
Lemma od_get_registry_of id calls :
  od_get id (registry_of calls) = last (filter (λ s, serializer_id s = id) calls).
Proof.
  induction calls as [|s calls IH] using rev_ind; [done|].
  rewrite registry_of_snoc, od_get_setitem, filter_app, IH.
  rewrite filter_cons, filter_nil. case_decide; subst.
  - rewrite decide_True by done. by rewrite last_snoc.
  - rewrite decide_False by done. by rewrite app_nil_r.
Qed.

Lemma first_occurrences_ext (seen seen' ids : list string) :
  (∀ x, x ∈ seen ↔ x ∈ seen') →
  first_occurrences seen ids = first_occurrences seen' ids.
Proof.
  revert seen seen'. induction ids as [|id ids IH]; intros seen seen' Heq; simpl; [done|].
  destruct (decide (id ∈ seen)) as [Hin|Hin].
  - rewrite decide_True by (by apply Heq). by apply IH.
  - rewrite decide_False by (by rewrite <-Heq). f_equal. apply IH.
    intros x. rewrite !elem_of_cons, Heq. done.
Qed.

Lemma first_occurrences_elem_of (seen ids : list string) x :
  x ∈ first_occurrences seen ids → x ∈ ids.
Proof.
  revert seen. induction ids as [|id ids IH]; intros seen; simpl; [done|].
  case_decide; rewrite !elem_of_cons; [right; eauto|].
  intros [->|?]; [by left | right; eauto].
Qed.

Lemma od_keys_fold_register calls reg :
  od_keys (fold_left (λ reg s, (register_serializer s reg).2) calls reg) =
    od_keys reg ++ first_occurrences (od_keys reg) (serializer_id <$> calls).
Proof.
  revert reg. induction calls as [|s calls IH]; intros reg; simpl.
  - by rewrite app_nil_r.
  - rewrite IH, od_keys_setitem. case_decide; [done|].
    rewrite <-app_assoc. simpl. do 2 f_equal.
    apply first_occurrences_ext. intros x.
    rewrite elem_of_app, elem_of_cons, elem_of_cons, elem_of_nil. tauto.
Qed.

Lemma od_keys_registry_of calls :
  od_keys (registry_of calls) = first_occurrences [] (serializer_id <$> calls).
Proof. unfold registry_of. by rewrite od_keys_fold_register. Qed.

Lemma od_values_registry_of_NoDup calls :
  NoDup (serializer_id <$> calls) → od_values (registry_of calls) = calls.
Proof.
  induction calls as [|s calls IH] using rev_ind; [done|].
  rewrite fmap_app. simpl. intros [Hnd [Hnew _]]%NoDup_app.
  rewrite registry_of_snoc, od_setitem_absent.
  - unfold od_values in *. by rewrite fmap_app, IH.
  - rewrite od_keys_registry_of. intros Hin%first_occurrences_elem_of.
    apply (Hnew _ Hin). by apply list_elem_of_singleton.
Qed.
End registry_facts.

Section registry_claims.
Context {S Obj : Type} `{!SerializerBase S Obj}.
Implicit Types (reg : registry S) (calls : list S) (s : S) (obj : Obj).

(** C7: [find_suitable_serializer obj] walks the serializers of the registry
    in its iteration order and returns the first one whose [can_process obj]
    is true: every serializer before the returned one rejects [obj].  It
    raises [UnknownObjectType], and nothing else, exactly when every
    registered serializer rejects [obj].  The iteration order is the
    registration order: after calls with pairwise different ids the registry
    iterates over the serializers as they were registered. *)
Theorem find_suitable_serializer_first_match calls obj :
  let reg := registry_of calls in
  (∀ s, find_suitable_serializer obj reg = ok s ↔
        ∃ pre post, od_values reg = pre ++ s :: post ∧
                    Forall (rejects obj) pre ∧ can_process s obj = true) ∧
  (find_suitable_serializer obj reg = raise UnknownObjectType ↔
     Forall (rejects obj) (od_values reg)) ∧
  (∀ e, find_suitable_serializer obj reg = raise e → e = UnknownObjectType) ∧
  (NoDup (serializer_id <$> calls) → od_values reg = calls).
Proof.
  intros reg. unfold find_suitable_serializer, ok, raise. split_and!.
  - intros s. rewrite <-first_suitable_Some.
    destruct (first_suitable obj (od_values reg)); split; congruence.
  - rewrite <-first_suitable_None.
    destruct (first_suitable obj (od_values reg)); split; congruence.
  - intros e. destruct (first_suitable obj (od_values reg)); congruence.
  - apply od_values_registry_of_NoDup.
Qed.

(** C9: [get_serializer_by_id id] is an exact lookup: it returns the
    serializer registered under [id] (the one of the latest registration with
    that id) when [id] has been registered, and it raises [UnknownSerializer],
    and nothing else, exactly when no call has registered [id]. *)
Theorem get_serializer_by_id_exact calls id :
  let reg := registry_of calls in
  (∀ s, get_serializer_by_id id reg = ok s ↔
        last (filter (λ s', serializer_id s' = id) calls) = Some s) ∧
  (get_serializer_by_id id reg = raise (UnknownSerializer id) ↔
     id ∉ serializer_id <$> calls) ∧
  (∀ e, get_serializer_by_id id reg = raise e → e = UnknownSerializer id) ∧
  (∀ s, get_serializer_by_id id reg = ok s → serializer_id s = id ∧ s ∈ calls).
Proof.
  intros reg.
  assert (Hget : od_get id reg = last (filter (λ s', serializer_id s' = id) calls))
    by apply od_get_registry_of.
  assert (Hmem : od_contains id reg = true ↔ id ∈ serializer_id <$> calls).
  { rewrite od_contains_true, <-od_get_is_Some, Hget.
    rewrite <-not_eq_None_Some, last_None. split.
    - intros Hne. destruct (filter _ calls) as [|s l] eqn:Hf; [done|].
      assert (Hs : s ∈ filter (λ s', serializer_id s' = id) calls)
        by (rewrite Hf; left).
      apply list_elem_of_filter in Hs as [<- Hs]. by apply list_elem_of_fmap_2.
    - intros (s & -> & Hs)%list_elem_of_fmap Hnil.
      assert (Hin : s ∈ filter (λ s', serializer_id s' = serializer_id s) calls)
        by (by apply list_elem_of_filter).
      rewrite Hnil in Hin. by apply elem_of_nil in Hin. }
  unfold get_serializer_by_id, od_getitem, ok, raise.
  destruct (od_contains id reg) eqn:Hc.
  - assert (Hin : id ∈ serializer_id <$> calls) by (by apply Hmem).
    assert (is_Some (od_get id reg)) as [s0 Hs0]
      by (by apply od_get_is_Some, od_contains_true).
    rewrite Hs0. rewrite Hs0 in Hget. split_and!.
    + intros s. rewrite <-Hget. split; congruence.
    + split; [done | intros Hn; by destruct Hn].
    + done.
    + intros s [= <-]. symmetry in Hget. apply last_Some_elem_of in Hget.
      apply list_elem_of_filter in Hget. tauto.
  - assert (Hnin : id ∉ serializer_id <$> calls).
    { intros Hin%Hmem. congruence. }
    assert (od_get id reg = None) as Hnone
      by (by apply od_get_None, od_contains_false).
    split_and!.
    + intros s. rewrite <-Hget, Hnone. split; congruence.
    + done.
    + by intros e [= <-].
    + done.
Qed.

(** C10: registering a serializer under an id that is already registered
    replaces the stored serializer at the place the id already has in the
    iteration order; the id is not moved to the end, so the new serializer is
    tried by [find_suitable_serializer] ahead of everything registered after
    the first registration of its id, and the order of the ids of a registry
    is the order of their first registrations.  [register_serializer]
    returns its argument. *)
Theorem register_serializer_keeps_position s reg old :
  od_get (serializer_id s) reg = Some old →
  (register_serializer s reg).1 = s ∧
  od_keys (register_serializer s reg).2 = od_keys reg ∧
  od_get (serializer_id s) (register_serializer s reg).2 = Some s ∧
  (∃ pre post,
     reg = pre ++ (serializer_id s, old) :: post ∧
     (serializer_id s ∉ od_keys pre) ∧
     (register_serializer s reg).2 = pre ++ (serializer_id s, s) :: post ∧
     ∀ obj, Forall (rejects obj) (od_values pre) → can_process s obj = true →
            find_suitable_serializer obj (register_serializer s reg).2 = ok s) ∧
  (∀ calls, od_keys (registry_of calls) =
              first_occurrences [] (serializer_id <$> calls)).
Proof.
  intros Hold. simpl. split_and!.
  - done.
  - apply od_keys_setitem_present, od_get_is_Some. by exists old.
  - by rewrite od_get_setitem, decide_True.
  - destruct (od_setitem_present (serializer_id s) s old reg Hold)
      as (pre & post & Hreg & Hpre & Hset).
    exists pre, post. split_and!; [done..|].
    intros obj Hrej Hacc. rewrite Hset.
    assert (first_suitable obj (od_values (pre ++ (serializer_id s, s) :: post))
            = Some s) as Hfirst.
    { apply first_suitable_Some. exists (od_values pre), (od_values post).
      unfold od_values. by rewrite fmap_app. }
    unfold find_suitable_serializer. by rewrite Hfirst.
  - apply od_keys_registry_of.
Qed.
End registry_claims.

(** ** The object store and the slot index *)
Section pack_facts.
Context {S Obj : Type} `{!SerializerBase S Obj} `{!Digest}.
Implicit Types (reg : registry S) (p : Pack) (key : slot_key) (obj : Obj).
Implicit Types (store : gmap string entry) (index : gmap (option string) Slot).

Lemma elem_of_list_entries name store :
  name ∈ list_entries store ↔ ∃ e, store !! name = Some e ∧ entry_payload e ≠ "".
Proof.
  unfold list_entries. rewrite elem_of_dom. unfold is_Some.
  by setoid_rewrite map_lookup_filter_Some.
Qed.

Lemma elem_of_referenced_objects name index :
  name ∈ referenced_objects index ↔
  ∃ key slot, index !! key = Some slot ∧ pack_object slot = name.
Proof.
  unfold referenced_objects. rewrite elem_of_map_img.
  setoid_rewrite lookup_fmap_Some. split.
  - intros (key & slot & Hname & Hslot). by exists key, slot.
  - intros (key & slot & Hslot & Hname). by exists key, slot.
Qed.




Lemma put_lookup_other data store name :
  name ≠ content_hash data → (put data store).2 !! name = store !! name.
Proof.
  intros Hne. unfold put. case_decide; simpl; [done|].
  by rewrite lookup_insert_ne.
Qed.

Lemma put_lookup_live data store :
  ∃ stored, (put data store).2 !! content_hash data = Some (Live stored).
Proof.
  unfold put. case_decide as Hin; simpl.
  - apply elem_of_list_entries in Hin as ([other|] & Hlook & Hne); [|done].
    by exists other.
  - exists data. by rewrite lookup_insert_eq.
Qed.

Lemma put_fst data store : (put data store).1 = content_hash data.
Proof. unfold put. by case_decide. Qed.

(** The slot that [dump] records for an object. *)
Lemma dump_ok reg key obj p s :
  has_slot key p = false →
  find_suitable_serializer obj reg = ok s →
  dump reg key obj p =
    ok {| slots := <[key := {| pack_object := content_hash (serialize s obj);
                              slot_checksum := checksum (serialize s obj);
                              slot_serializer_id := serializer_id s;
                              dependencies := [] |}]> (slots p);
          objects := (put (serialize s obj) (objects p)).2 |}.
Proof.
  intros Hfresh Hfind. unfold dump.
  rewrite Hfresh, Hfind. simpl.
  destruct (put (serialize s obj) (objects p)) as [hash store] eqn:Hput.
  assert (hash = content_hash (serialize s obj)) as ->
    by (by rewrite <-(put_fst (serialize s obj) (objects p)), Hput).
  done.
Qed.

(** [dump] raises nothing but the key error and the error of the registry. *)
Lemma dump_inv reg key obj p p' :
  dump reg key obj p = ok p' →
  has_slot key p = false ∧
  ∃ s, find_suitable_serializer obj reg = ok s.
Proof.
  unfold dump. destruct (has_slot key p); [done|].
  destruct (find_suitable_serializer obj reg) as [e|s]; simpl; [done|].
  intros _. split; [done|]. by exists s.
Qed.


Lemma find_suitable_get_by_id calls obj s :
  find_suitable_serializer obj (registry_of calls) = ok s →
  get_serializer_by_id (serializer_id s) (registry_of calls) = ok s.
Proof.
  intros Hfind.
  unfold find_suitable_serializer in Hfind.
  destruct (first_suitable obj (od_values (registry_of calls))) as [s'|] eqn:Hfirst;
    [|done].
  injection Hfind as ->.
  apply first_suitable_Some in Hfirst as (pre & post & Hvalues & _ & _).
  assert (Hown : od_get (serializer_id s) (registry_of calls) = Some s).
  { apply registry_wf_get_own; [apply registry_of_wf|].
    rewrite Hvalues. apply elem_of_app. right. left. }
  unfold get_serializer_by_id, od_getitem.
  assert (od_contains (serializer_id s) (registry_of calls) = true) as ->.
  { apply od_contains_true, od_get_is_Some. by exists s. }
  by rewrite Hown.
Qed.
End pack_facts.

(** ** What the calls keep true of a Pack *)
Section pack_invariant.
Context {S Obj : Type} `{!SerializerBase S Obj} `{!Digest}.
Implicit Types (reg : registry S) (p : Pack) (key : slot_key) (obj : Obj).

Lemma pack_wf_empty : pack_wf empty_pack.
Proof.
  split_and!; simpl.
  - intros key slot Hslot. by rewrite lookup_empty in Hslot.
  - intros name data Hentry. by rewrite lookup_empty in Hentry.
Qed.

Lemma put_content_addressed data store :
  (∀ name d, store !! name = Some (Live d) → content_hash d = name) →
  ∀ name d, (put data store).2 !! name = Some (Live d) → content_hash d = name.
Proof.
  intros Hstore name d. unfold put. case_decide; simpl; [apply Hstore|].
  rewrite lookup_insert. case_decide as Hname.
  - intros [= <-]. done.
  - apply Hstore.
Qed.

Lemma dump_wf reg key obj p p' :
  pack_wf p → dump reg key obj p = ok p' → pack_wf p'.
Proof.
  intros (Hslots & Hstore) Hdump.
  destruct (dump_inv _ _ _ _ _ Hdump) as (Hfresh & s & Hfind).
  rewrite (dump_ok _ _ _ _ s Hfresh Hfind) in Hdump.
  injection Hdump as <-. split_and!; simpl.
  - intros k slot. rewrite lookup_insert. case_decide as Hk.
    + intros [= <-]. simpl. apply put_lookup_live.
    + intros Hslot. destruct (Hslots _ _ Hslot) as [d Hd].
      destruct (decide (pack_object slot = content_hash (serialize s obj))) as [->|Hne].
      * apply put_lookup_live.
      * exists d. by rewrite put_lookup_other.
  - by apply put_content_addressed.
Qed.

Lemma remove_wf key p p' : pack_wf p → remove key p = ok p' → pack_wf p'.
Proof.
  intros (Hslots & Hstore). unfold remove.
  destruct (slots p !! key) as [slot|] eqn:Hslot; [|done].
  intros [= <-]. split_and!; simpl.
  - intros k slot' Hk. pose proof Hk as Hk'.
    apply lookup_delete_Some in Hk' as [_ Hk'].
    destruct (Hslots _ _ Hk') as [d Hd]. exists d.
    case_decide as Href; [done|].
    unfold erase. rewrite lookup_alter_ne; [done|].
    intros Heq. apply Href. apply elem_of_referenced_objects. by exists k, slot'.
  - intros name d. case_decide; [apply Hstore|].
    unfold erase. rewrite lookup_alter. case_decide.
    + by destruct (objects p !! pack_object slot).
    + apply Hstore.
Qed.

Lemma cleanup_wf p : pack_wf p → pack_wf (cleanup_dangling_pack_objects p).2.
Proof.
  intros (Hslots & Hstore). split_and!; simpl.
  - intros k slot Hk. destruct (Hslots _ _ Hk) as [d Hd]. exists d.
    apply map_lookup_filter_Some. split; [done|]. simpl.
    unfold dangling_pack_objects. rewrite elem_of_difference.
    intros [_ Hnot]. apply Hnot, elem_of_referenced_objects. by exists k, slot.
  - intros name d [Hd _]%map_lookup_filter_Some. by apply (Hstore name).
Qed.

Lemma run_call_wf reg c p : pack_wf p → pack_wf (run_call reg c p).
Proof.
  intros Hwf. destruct c as [key obj|key|]; simpl.
  - destruct (dump reg key obj p) as [e|p'] eqn:Hdump; [done|].
    by apply (dump_wf reg key obj p).
  - destruct (remove key p) as [e|p'] eqn:Hremove; [done|].
    by apply (remove_wf key p).
  - by apply cleanup_wf.
Qed.

Lemma run_snoc reg calls c : run reg (calls ++ [c]) = run_call reg c (run reg calls).
Proof. unfold run. by rewrite fold_left_app. Qed.

Lemma run_wf reg calls : pack_wf (run reg calls).
Proof.
  induction calls as [|c calls IH] using rev_ind.
  - apply pack_wf_empty.
  - rewrite run_snoc. by apply run_call_wf.
Qed.

(** With a content hash that has no collisions, no sequence of calls leaves
    a collision behind. *)
Lemma run_collision_free reg calls data :
  Inj (=) (=) content_hash → collision_free data (objects (run reg calls)).
Proof.
  intros Hinj other Hentry _.
  destruct (run_wf reg calls) as (_ & Hstore).
  apply Hinj. by apply Hstore.
Qed.
End pack_invariant.

(** ** The operations of the Pack *)
Section pack_claims.
Context {S Obj : Type} `{!SerializerBase S Obj} `{!Digest}.
Implicit Types (reg : registry S) (p : Pack) (key : slot_key) (obj : Obj).
Implicit Types (env : Environment).



(** C3: [dump] on a key that is already in the slot index raises
    [SlotKeyError] whatever the object, whether a serializer accepts it or
    not and whether it equals the stored one or not; the call leaves the Pack
    as it was, so the slot is not overwritten. *)
Theorem dump_existing_key_fails reg key obj p :
  has_slot key p = true →
  dump reg key obj p = raise SlotKeyError ∧
  run_call reg (Dump key obj) p = p.
Proof.
  intros Hpresent.
  assert (Hdump : dump reg key obj p = raise SlotKeyError).
  { unfold dump. by rewrite Hpresent. }
  split; [done|]. simpl. by rewrite Hdump.
Qed.

(** C4: once the stored bytes of an entry have been overwritten with bytes
    of another checksum, [load] of every slot that refers to the entry raises
    [MLIOPackSlotWrongChecksum].  The error comes out of the checks that
    precede decoding, whatever the registry and the environment are, so no
    serializer is resolved and nothing is deserialized. *)
Theorem load_modified_entry_wrong_checksum reg env name data key slot p :
  slots p !! key = Some slot →
  pack_object slot = name →
  checksum data ≠ slot_checksum slot →
  load_verified env key (writestr name data p) = raise MLIOPackSlotWrongChecksum ∧
  load reg env key (writestr name data p) = raise MLIOPackSlotWrongChecksum.
Proof.
  intros Hslot Hname Hsum.
  assert (Hver : load_verified env key (writestr name data p)
                 = raise MLIOPackSlotWrongChecksum).
  { unfold load_verified, get. simpl. rewrite Hslot, Hname, lookup_insert_eq. simpl.
    by rewrite decide_False. }
  split; [done|]. unfold load. by rewrite Hver.
Qed.

(** C5: a slot with an attached dependency that the environment does not
    satisfy never loads; when its entry is readable and its checksum
    matches, [load] raises [MLIODependenciesNotSatisfied] for the first
    unsatisfied dependency of the slot.  The error comes out of the checks
    that precede decoding, whatever the registry is, so the stored bytes are
    not deserialized. *)
Theorem load_unsatisfied_dependency_fails reg env key slot d p :
  slots p !! key = Some slot →
  d ∈ od_values (dependencies slot) →
  is_satisfied env d = false →
  (∀ obj, load reg env key p ≠ ok obj) ∧
  ∃ d0, first_unsatisfied env (od_values (dependencies slot)) = Some d0 ∧
        is_satisfied env d0 = false ∧
        ∀ data, get (pack_object slot) (objects p) = ok data →
                checksum data = slot_checksum slot →
                load_verified env key p
                  = raise (MLIODependenciesNotSatisfied (dependency_id d0)) ∧
                load reg env key p
                  = raise (MLIODependenciesNotSatisfied (dependency_id d0)).
Proof.
  intros Hslot Hd Hunsat.
  assert (∃ d0, first_unsatisfied env (od_values (dependencies slot)) = Some d0 ∧
                is_satisfied env d0 = false) as (d0 & Hfirst & Hd0).
  { induction (od_values (dependencies slot)) as [|d1 deps IH]; simpl.
    - by apply elem_of_nil in Hd.
    - destruct (is_satisfied env d1) eqn:Hd1; [|by exists d1].
      apply IH. apply elem_of_cons in Hd as [->|Hd]; [congruence | done]. }
  split.
  - intros obj. unfold load, load_verified. rewrite Hslot.
    destruct (get (pack_object slot) (objects p)) as [e|data]; simpl; [done|].
    case_decide; [|done]. by rewrite Hfirst.
  - exists d0. split_and!; [done..|]. intros data Hget Hsum.
    assert (Hver : load_verified env key p
                   = raise (MLIODependenciesNotSatisfied (dependency_id d0))).
    { unfold load_verified. rewrite Hslot, Hget. simpl.
      rewrite decide_True by done. by rewrite Hfirst. }
    split; [done|]. unfold load. by rewrite Hver.
Qed.


End pack_claims.

(** ** Erasure and compaction *)
Section compaction_claims.
Context {S Obj : Type} `{!SerializerBase S Obj} `{!Digest}.
Implicit Types (reg : registry S) (p : Pack) (key : slot_key) (obj : Obj).


(** The two readings of [remove] differ only on an entry that another slot
    still refers to. *)
Lemma remove_unchecked_sole key slot p :
  slots p !! key = Some slot →
  pack_object slot ∉ referenced_objects (delete key (slots p)) →
  remove key p = remove_unchecked key p.
Proof.
  intros Hslot Hsole. unfold remove, remove_unchecked. rewrite Hslot.
  by rewrite decide_False.
Qed.

End compaction_claims.

(** ** The claims on concrete Packs and registries *)
Import Fixtures.

Lemma find_suitable_serializer_first_match_witness :
  NoDup (serializer_id <$> [str_codec; bool_codec]) ∧
  od_values (registry_of [str_codec; bool_codec]) = [str_codec; bool_codec] ∧
  find_suitable_serializer (PyBool true) (registry_of [str_codec; bool_codec])
  = ok bool_codec.
Proof.
  assert (Hnd : NoDup (serializer_id <$> [str_codec; bool_codec])).
  { simpl. apply NoDup_cons. split; [|apply NoDup_singleton].
    intros Hin%list_elem_of_singleton. discriminate. }
  split; [exact Hnd|]. split.
  - apply (find_suitable_serializer_first_match [str_codec; bool_codec] PyOther).
    exact Hnd.
  - apply (find_suitable_serializer_first_match [str_codec; bool_codec] (PyBool true)).
    exists [str_codec], []. split_and!; [reflexivity | | reflexivity].
    repeat constructor.
Defined.

Lemma register_serializer_keeps_position_witness :
  od_get (serializer_id any_codec) reg = Some str_codec ∧
  od_values (register_serializer any_codec reg).2 = [any_codec; bool_codec] ∧
  od_keys (register_serializer any_codec reg).2 = od_keys reg ∧
  find_suitable_serializer (PyBool true) (register_serializer any_codec reg).2
  = ok any_codec.
Proof.
  split; [reflexivity|]. split; [reflexivity|]. split.
  - apply (register_serializer_keeps_position any_codec reg str_codec). reflexivity.
  - reflexivity.
Defined.



Lemma dump_existing_key_fails_witness :
  has_slot slot1 two_objects_pack = true ∧
  dump reg slot1 obj2k two_objects_pack = raise SlotKeyError ∧
  run_call reg (Dump slot1 obj2k) two_objects_pack = two_objects_pack.
Proof.
  split; [reflexivity|].
  apply (dump_existing_key_fails reg slot1 obj2k two_objects_pack). reflexivity.
Defined.

Lemma load_modified_entry_wrong_checksum_witness :
  (∃ slot, slots two_objects_pack !! slot1 = Some slot ∧
           pack_object slot = obj1k_hash ∧
           checksum "broken data" ≠ slot_checksum slot) ∧
  load reg bare_env slot1 (writestr obj1k_hash "broken data" two_objects_pack)
  = raise MLIOPackSlotWrongChecksum.
Proof.
  set (slot := {| pack_object := obj1k_hash;
                  slot_checksum := checksum (serialize str_codec obj1k);
                  slot_serializer_id := "str"; dependencies := [] |}).
  assert (Hslot : slots two_objects_pack !! slot1 = Some slot) by reflexivity.
  assert (Hsum : checksum "broken data" ≠ slot_checksum slot) by discriminate.
  split.
  - exists slot. split_and!; [exact Hslot | reflexivity | exact Hsum].
  - apply (load_modified_entry_wrong_checksum reg bare_env obj1k_hash "broken data"
             slot1 slot two_objects_pack Hslot eq_refl Hsum).
Defined.

Lemma load_unsatisfied_dependency_fails_witness :
  (∃ slot, slots (inject_dependency slot1 moduleone_dep two_objects_pack) !! slot1
           = Some slot ∧
           moduleone_dep ∈ od_values (dependencies slot)) ∧
  is_satisfied mocked_env moduleone_dep = false ∧
  ∀ obj, load reg mocked_env slot1 (inject_dependency slot1 moduleone_dep two_objects_pack)
         ≠ ok obj.
Proof.
  set (slot := {| pack_object := obj1k_hash;
                  slot_checksum := checksum (serialize str_codec obj1k);
                  slot_serializer_id := "str";
                  dependencies := [(dependency_id moduleone_dep, moduleone_dep)] |}).
  assert (Hslot : slots (inject_dependency slot1 moduleone_dep two_objects_pack) !! slot1
                  = Some slot) by reflexivity.
  assert (Hdep : moduleone_dep ∈ od_values (dependencies slot)) by (simpl; left).
  split_and!.
  - exists slot. split; [exact Hslot | exact Hdep].
  - reflexivity.
  - apply (load_unsatisfied_dependency_fails reg mocked_env slot1 slot moduleone_dep
             (inject_dependency slot1 moduleone_dep two_objects_pack)
             Hslot Hdep eq_refl).
Defined.






(** ** tests/io_tests/pack_tests.py on the model *)
Module PackTests.

Example test_ctor_on_new_file : slots empty_pack = ∅.
Proof. reflexivity. Qed.

Example test_func_info : dom (slots two_objects_pack) = {[slot1; slot2]}.
Proof. vm_compute. reflexivity. Qed.

Example test_existing_pack_objects :
  elements (existing_pack_objects empty_pack) = [] ∧
  elements (existing_pack_objects
              (run reg [Dump slot1 obj1k; Dump (Some "slot1-2") obj1k]))
  = [obj1k_hash] ∧
  existing_pack_objects
    (run reg [Dump slot1 obj1k; Dump (Some "slot1-2") obj1k; Dump slot2 obj2k])
  = {[obj1k_hash; obj2k_hash]}.
Proof. split_and!; vm_compute; reflexivity. Qed.

Example test_remove_dangling_slot_objects :
  (cleanup_dangling_pack_objects empty_pack).1 = [] ∧
  elements (existing_pack_objects (cleanup_dangling_pack_objects empty_pack).2) = [] ∧
  (cleanup_dangling_pack_objects two_objects_pack).1 = [] ∧
  existing_pack_objects (cleanup_dangling_pack_objects two_objects_pack).2
  = {[obj1k_hash; obj2k_hash]} ∧
  zip_read obj2k_hash (run_call reg (Remove slot2) two_objects_pack) = Some "" ∧
  elements (existing_pack_objects (run_call reg (Remove slot2) two_objects_pack))
  = [obj1k_hash].
Proof. split_and!; vm_compute; reflexivity. Qed.

Example test_dump_on_existing :
  dump reg slot1 obj2k (run reg [Dump slot1 obj1k]) = raise SlotKeyError.
Proof. reflexivity. Qed.

Example test_dump : slot1 ∈ dom (slots (run reg [Dump slot1 obj1k])).
Proof. apply elem_of_dom. by eexists. Qed.

Example test_dump_same_object_and_remove_one_slot :
  load reg bare_env slot1 (run_call reg (Remove slot2) shared_object_pack) = ok obj1k.
Proof. reflexivity. Qed.

(** The same test on the erasure that does not look at the other slots. *)
Example test_dump_same_object_and_remove_one_slot_unchecked :
  (try p := remove_unchecked slot2 shared_object_pack in load reg bare_env slot1 p)
  = raise (PackObjectNotFound obj1k_hash).
Proof. reflexivity. Qed.

Example test_redump_same_object :
  load reg bare_env slot2 (run reg [Dump slot1 obj1k; Remove slot1; Dump slot2 obj1k])
  = ok obj1k.
Proof. reflexivity. Qed.

Example test_load_invalid_key :
  load reg bare_env (Some "unknown-slot1") empty_pack = raise SlotKeyError.
Proof. reflexivity. Qed.

Example test_load_invalid_hash :
  load reg bare_env slot1
       (writestr obj1k_hash "broken data" (run reg [Dump slot1 obj1k]))
  = raise MLIOPackSlotWrongChecksum.
Proof. reflexivity. Qed.

Example test_load_unsatisfied_dependencies :
  load reg mocked_env slot1
       (inject_dependency slot1 moduleone_dep (run reg [Dump slot1 obj1k]))
  = raise (MLIODependenciesNotSatisfied (dependency_id moduleone_dep)).
Proof. reflexivity. Qed.

Example test_load_valid :
  load reg bare_env slot1 two_objects_pack = ok obj1k ∧
  load reg bare_env slot2 two_objects_pack = ok obj2k.
Proof. split; reflexivity. Qed.

Example test_has_slot_and_contains :
  has_slot (Some "") empty_pack = false ∧
  has_slot (Some "unknown") empty_pack = false ∧
  has_slot None empty_pack = false ∧
  has_slot slot1 empty_pack = false ∧
  contains (Some "") empty_pack = false ∧
  contains None empty_pack = false ∧
  has_slot slot1 two_objects_pack = true ∧
  has_slot slot2 two_objects_pack = true ∧
  has_slot (Some "") two_objects_pack = false ∧
  has_slot (Some "unknown") two_objects_pack = false ∧
  has_slot None two_objects_pack = false ∧
  contains slot1 two_objects_pack = true ∧
  contains slot2 two_objects_pack = true ∧
  contains (Some "") two_objects_pack = false ∧
  contains (Some "unknown") two_objects_pack = false ∧
  contains None two_objects_pack = false.
Proof. split_and!; reflexivity. Qed.

End PackTests.

(** ** More on the serializer registry *)
Section registry_more.
Context {S Obj : Type} `{!SerializerBase S Obj}.
Implicit Types (r : registry S) (calls : list S) (s : S) (obj : Obj).

(** The membership test of [get_serializer_by_id] and its subscript agree, so
    the lookup is the [get] of the dictionary. *)
Lemma get_serializer_by_id_od_get id r :
  get_serializer_by_id id r =
    match od_get id r with
    | Some s => ok s
    | None => raise (UnknownSerializer id)
    end.
Proof.
  unfold get_serializer_by_id, od_getitem.
  destruct (od_contains id r) eqn:Hc.
  - apply od_contains_true, od_get_is_Some in Hc as [s Hs]. by rewrite Hs.
  - apply od_contains_false, od_get_None in Hc. by rewrite Hc.
Qed.

Lemma od_setitem_idemp (k : string) (v : S) (d : OrderedDict S) :
  od_setitem k v (od_setitem k v d) = od_setitem k v d.
Proof.
  induction d as [|[k' v'] d IH]; simpl.
  - by rewrite decide_True.
  - destruct (decide (k = k')) as [->|Hne]; simpl.
    + by rewrite decide_True.
    + rewrite decide_False by done. by rewrite IH.
Qed.

Lemma od_setitem_length (k : string) (v : S) (d : OrderedDict S) :
  length (od_setitem k v d) = if decide (k ∈ od_keys d) then length d else Datatypes.S (length d).
Proof.
  rewrite <-(length_fmap fst (od_setitem k v d)), <-(length_fmap fst d).
  change (fst <$> od_setitem k v d) with (od_keys (od_setitem k v d)).
  change (fst <$> d) with (od_keys d).
  rewrite od_keys_setitem. case_decide; [done|].
  rewrite length_app. simpl. lia.
Qed.

Lemma first_suitable_app obj (l1 l2 : list S) :
  first_suitable obj (l1 ++ l2) =
    match first_suitable obj l1 with
    | Some s => Some s
    | None => first_suitable obj l2
    end.
Proof.
  induction l1 as [|s l1 IH]; simpl; [done|].
  by destruct (can_process s obj).
Qed.

Lemma od_contains_registry_of id calls :
  od_contains id (registry_of calls) = true ↔ id ∈ serializer_id <$> calls.
Proof.
  rewrite od_contains_true, <-od_get_is_Some, od_get_registry_of.
  rewrite <-not_eq_None_Some, last_None. split.
  - intros Hne. destruct (filter _ calls) as [|s l] eqn:Hf; [done|].
    assert (Hs : s ∈ filter (λ s', serializer_id s' = id) calls)
      by (rewrite Hf; left).
    apply list_elem_of_filter in Hs as [<- Hs]. by apply list_elem_of_fmap_2.
  - intros (s & -> & Hs)%list_elem_of_fmap Hnil.
    assert (Hin : s ∈ filter (λ s', serializer_id s' = serializer_id s) calls)
      by (by apply list_elem_of_filter).
    rewrite Hnil in Hin. by apply elem_of_nil in Hin.
Qed.

(** X1: a serializer that has just been registered is the one its id looks
    up, whatever the registry held before. *)
Theorem register_then_get_by_id s r :
  get_serializer_by_id (serializer_id s) (register_serializer s r).2 = ok s.
Proof.
  rewrite get_serializer_by_id_od_get. simpl.
  by rewrite od_get_setitem, decide_True.
Qed.

(** X2: registering a serializer changes the lookup of no other id: it
    returns the same serializer, or raises the same error, as before. *)
Theorem register_keeps_other_ids s r id :
  id ≠ serializer_id s →
  get_serializer_by_id id (register_serializer s r).2 = get_serializer_by_id id r.
Proof.
  intros Hne. rewrite !get_serializer_by_id_od_get. simpl.
  by rewrite od_get_setitem, decide_False.
Qed.

(** X3: registration is idempotent: registering a serializer a second time in
    a row leaves the registry, order included, as the first registration
    left it. *)
Theorem register_serializer_idempotent s r :
  register_serializer s (register_serializer s r).2 = register_serializer s r.
Proof. unfold register_serializer. simpl. by rewrite od_setitem_idemp. Qed.

(** X4: the registry after any sequence of registrations holds every id at
    most once, files every serializer under the id the serializer reports,
    holds only serializers that were registered, knows the id of every
    registered serializer, and is no longer than the number of calls. *)
Theorem registry_of_invariant calls :
  NoDup (od_keys (registry_of calls)) ∧
  (∀ id s, od_get id (registry_of calls) = Some s → serializer_id s = id ∧ s ∈ calls) ∧
  (∀ s, s ∈ calls → od_contains (serializer_id s) (registry_of calls) = true) ∧
  length (registry_of calls) ≤ length calls.
Proof.
  split_and!.
  - apply registry_of_wf.
  - intros id s. rewrite od_get_registry_of. intros Hlast%last_Some_elem_of.
    apply list_elem_of_filter in Hlast. tauto.
  - intros s Hs. apply od_contains_registry_of. by apply list_elem_of_fmap_2.
  - induction calls as [|s calls IH] using rev_ind; [done|].
    rewrite registry_of_snoc, od_setitem_length, length_app. simpl.
    case_decide; lia.
Qed.

(** X5: a serializer registered under an id that is new has the lowest
    priority: an object that had a serializer keeps it, and an object that
    had none gets the new serializer exactly when that one accepts it. *)
Theorem register_new_id_lowest_priority s r obj :
  serializer_id s ∉ od_keys r →
  find_suitable_serializer obj (register_serializer s r).2 =
    match find_suitable_serializer obj r with
    | inr s0 => ok s0
    | inl _ => if can_process s obj then ok s else raise UnknownObjectType
    end.
Proof.
  intros Hnew. unfold find_suitable_serializer. simpl.
  rewrite od_setitem_absent by done. unfold od_values.
  rewrite fmap_app, first_suitable_app. simpl.
  destruct (first_suitable obj r.*2); [done|].
  by destruct (can_process s obj).
Qed.

(** X6: the serializer that dispatch returns accepts the object, is the one
    of the latest registration under its id, so that a serializer overwritten
    by a later registration is never returned, and is the serializer that its
    own id looks up. *)
Theorem find_suitable_returns_latest calls obj s :
  find_suitable_serializer obj (registry_of calls) = ok s →
  can_process s obj = true ∧
  last (filter (λ s', serializer_id s' = serializer_id s) calls) = Some s ∧
  get_serializer_by_id (serializer_id s) (registry_of calls) = ok s.
Proof.
  intros Hfind. pose proof (find_suitable_get_by_id calls obj s Hfind) as Hget.
  unfold find_suitable_serializer in Hfind.
  destruct (first_suitable obj (od_values (registry_of calls))) as [s'|] eqn:Hfirst;
    [|done].
  injection Hfind as ->.
  apply first_suitable_Some in Hfirst as (pre & post & Hvalues & _ & Hacc).
  split_and!; [done| |done].
  rewrite <-od_get_registry_of.
  apply registry_wf_get_own; [apply registry_of_wf|].
  rewrite Hvalues. apply elem_of_app. right. left.
Qed.

(** X7: two registrations under different ids can be swapped without a
    change in what any id looks up; only the dispatch order depends on which
    came first. *)
Theorem register_commutes_for_lookup s1 s2 r id :
  serializer_id s1 ≠ serializer_id s2 →
  get_serializer_by_id id (register_serializer s2 (register_serializer s1 r).2).2 =
  get_serializer_by_id id (register_serializer s1 (register_serializer s2 r).2).2.
Proof.
  intros Hne. rewrite !get_serializer_by_id_od_get. simpl.
  rewrite !od_get_setitem. repeat case_decide; congruence.
Qed.
End registry_more.

(** ** More on the Pack of the tests *)
Section pack_more.
Context {S Obj : Type} `{!SerializerBase S Obj} `{!Digest}.
Implicit Types (r : registry S) (p : Pack) (key : slot_key) (obj : Obj).
Implicit Types (env : Environment).

(** [load] of a key reads the slot of the key and the entry the slot refers
    to, and nothing else of the Pack. *)
Lemma load_ext r env key p p' :
  slots p' !! key = slots p !! key →
  (∀ slot, slots p !! key = Some slot →
           objects p' !! pack_object slot = objects p !! pack_object slot) →
  load r env key p' = load r env key p.
Proof.
  intros Hslots Hobjects. unfold load, load_verified, get. rewrite Hslots.
  destruct (slots p !! key) as [slot|] eqn:Hslot; [|done].
  by rewrite (Hobjects slot).
Qed.






(** X9: a slot is not disturbed by calls on other keys.  With a content hash
    that has no collisions, on a Pack reached from a new stream, [load] of a
    key that is in the index returns the same after any call but the removal
    of that key: a dump under another key, whatever its content, a dump
    refused for the key itself, the removal of another key that shares the
    content, or a compaction. *)
Theorem load_stable_under_other_calls r env calls c key :
  Inj (=) (=) content_hash →
  has_slot key (run r calls) = true →
  c ≠ Remove key →
  load r env key (run_call r c (run r calls)) = load r env key (run r calls).
Proof.
  intros Hinj Hpresent Hc.
  destruct (run_wf r calls) as (Hslots & Hstore).
  set (p := run r calls) in *.
  destruct c as [key' obj|key'|]; simpl.
  - destruct (dump r key' obj p) as [e|p'] eqn:Hdump; [done|].
    destruct (dump_inv _ _ _ _ _ Hdump) as (Hfresh & s & Hfind).
    rewrite (dump_ok _ _ _ _ s Hfresh Hfind) in Hdump.
    injection Hdump as <-.
    assert (key' ≠ key) as Hne by (intros ->; congruence).
    apply load_ext; simpl.
    + by rewrite lookup_insert_ne.
    + intros slot Hslot. destruct (Hslots _ _ Hslot) as [d Hd].
      unfold put. case_decide; simpl; [done|].
      rewrite lookup_insert. case_decide as Hname; [|done].
      rewrite Hd. do 2 f_equal. apply Hinj. rewrite Hname. symmetry.
      by apply Hstore.
  - destruct (remove key' p) as [e|p'] eqn:Hremove; [done|].
    assert (key' ≠ key) as Hne by congruence.
    unfold remove in Hremove.
    destruct (slots p !! key') as [slot'|] eqn:Hslot'; [|done].
    injection Hremove as <-. apply load_ext; simpl.
    + by rewrite lookup_delete_ne.
    + intros slot Hslot. case_decide as Href; [done|].
      unfold erase. rewrite lookup_alter_ne; [done|].
      intros Heq. apply Href, elem_of_referenced_objects.
      exists key, slot. by rewrite lookup_delete_ne.
  - apply load_ext; simpl; [done|].
    intros slot Hslot.
    assert (pack_object slot ∉ dangling_pack_objects p) as Hkept.
    { unfold dangling_pack_objects. rewrite elem_of_difference.
      intros [_ Hnot]. apply Hnot, elem_of_referenced_objects. by exists key, slot. }
    destruct (objects p !! pack_object slot) as [e|] eqn:Hentry.
    + by apply map_lookup_filter_Some.
    + apply map_lookup_filter_None. by left.
Qed.

End pack_more.

(** The content hash of the fixtures has no collisions. *)
Lemma string_length_app (a b : string) :
  String.length (a +:+ b) = String.length a + String.length b.
Proof. induction a as [|c a IH]; simpl; [done|]. by rewrite IH. Qed.

Lemma string_app_inj_r (t a b : string) : a +:+ t = b +:+ t → a = b.
Proof.
  revert b. induction a as [|c a IH]; intros [|c' b] Heq.
  - done.
  - apply (f_equal String.length) in Heq.
    rewrite !string_length_app in Heq. simpl in Heq. lia.
  - apply (f_equal String.length) in Heq.
    rewrite !string_length_app in Heq. simpl in Heq. lia.
  - cbn in Heq. injection Heq as -> Heq. f_equal. by apply IH.
Qed.

Lemma fixture_content_hash_inj : Inj (=) (=) (content_hash (Digest := digest)).
Proof.
  intros a b Heq. cbn in Heq. injection Heq as Heq.
  exact (string_app_inj_r ".slot" a b Heq).
Qed.

Lemma register_keeps_other_ids_witness :
  "bool" ≠ serializer_id any_codec ∧
  get_serializer_by_id "bool" (register_serializer any_codec reg).2 = ok bool_codec.
Proof.
  assert (Hne : "bool" ≠ serializer_id any_codec) by discriminate.
  split; [exact Hne|].
  rewrite (register_keeps_other_ids any_codec reg "bool" Hne). reflexivity.
Defined.

Lemma register_new_id_lowest_priority_witness :
  (serializer_id bool_codec ∉ od_keys (registry_of [any_codec])) ∧
  find_suitable_serializer (PyBool true)
    (register_serializer bool_codec (registry_of [any_codec])).2 = ok any_codec.
Proof.
  assert (Hnew : serializer_id bool_codec ∉ od_keys (registry_of [any_codec])).
  { simpl. intros Hin%list_elem_of_singleton. discriminate. }
  split; [exact Hnew|].
  rewrite (register_new_id_lowest_priority bool_codec (registry_of [any_codec])
             (PyBool true) Hnew).
  reflexivity.
Defined.

Lemma find_suitable_returns_latest_witness :
  find_suitable_serializer (PyBool true) (registry_of [str_codec; bool_codec; any_codec])
  = ok any_codec ∧
  last (filter (λ s', serializer_id s' = serializer_id any_codec)
               [str_codec; bool_codec; any_codec]) = Some any_codec.
Proof.
  split; [reflexivity|].
  apply (find_suitable_returns_latest [str_codec; bool_codec; any_codec]
           (PyBool true) any_codec).
  reflexivity.
Defined.

Lemma register_commutes_for_lookup_witness :
  serializer_id str_codec ≠ serializer_id bool_codec ∧
  get_serializer_by_id "str"
    (register_serializer bool_codec (register_serializer str_codec []).2).2 =
  get_serializer_by_id "str"
    (register_serializer str_codec (register_serializer bool_codec []).2).2.
Proof.
  assert (Hne : serializer_id str_codec ≠ serializer_id bool_codec) by discriminate.
  split; [exact Hne|].
  apply (register_commutes_for_lookup str_codec bool_codec [] "str" Hne).
Defined.

Lemma load_stable_under_other_calls_witness :
  Inj (=) (=) (content_hash (Digest := digest)) ∧
  has_slot slot1 (run reg [Dump slot1 obj1k]) = true ∧
  Dump slot2 obj1k ≠ Remove slot1 ∧
  load reg bare_env slot1 (run_call reg (Dump slot2 obj1k) (run reg [Dump slot1 obj1k]))
  = ok obj1k.
Proof.
  assert (Hc : Dump slot2 obj1k ≠ Remove slot1) by discriminate.
  assert (Hpresent : has_slot slot1 (run reg [Dump slot1 obj1k]) = true)
    by reflexivity.
  split_and!; [exact fixture_content_hash_inj | exact Hpresent | exact Hc |].
  rewrite (load_stable_under_other_calls reg bare_env [Dump slot1 obj1k]
             (Dump slot2 obj1k) slot1 fixture_content_hash_inj Hpresent Hc).
  reflexivity.
Defined.


(** ** Registration and dispatch, dump and the listed entries *)
Section more_composition.
Context {S Obj : Type} `{!SerializerBase S Obj} `{!Digest}.
Implicit Types (r : registry S) (p : Pack) (key : slot_key) (obj : Obj) (s : S).

Lemma first_suitable_accepting obj (l : list S) s :
  s ∈ l → can_process s obj = true →
  ∃ s', first_suitable obj l = Some s' ∧ can_process s' obj = true.
Proof.
  intros Hin Hacc.
  destruct (first_suitable obj l) as [s'|] eqn:Hfirst.
  - exists s'. split; [done|].
    by apply first_suitable_Some in Hfirst as (_ & _ & _ & _ & ?).
  - apply first_suitable_None in Hfirst.
    rewrite Forall_forall in Hfirst. specialize (Hfirst s Hin).
    unfold rejects in Hfirst. congruence.
Qed.

(** X11: once a serializer that accepts an object has been registered,
    dispatch for that object succeeds, whatever the registry held before and
    wherever the serializer landed in it; the serializer returned accepts the
    object, and it is the new one or one that comes before it. *)
Theorem register_accepting_then_find s r obj :
  can_process s obj = true →
  ∃ s', find_suitable_serializer obj (register_serializer s r).2 = ok s' ∧
        can_process s' obj = true ∧
        s' ∈ od_values (register_serializer s r).2.
Proof.
  intros Hacc. simpl.
  assert (Hin : s ∈ od_values (od_setitem (serializer_id s) s r)).
  { unfold od_values. apply list_elem_of_fmap.
    exists (serializer_id s, s). split; [done|].
    apply od_get_elem_of. by rewrite od_get_setitem, decide_True. }
  destruct (first_suitable_accepting obj _ s Hin Hacc) as (s' & Hfirst & Hacc').
  exists s'. unfold find_suitable_serializer. rewrite Hfirst. split_and!; [done..|].
  apply first_suitable_Some in Hfirst as (pre & post & -> & _).
  apply elem_of_app. right. left.
Qed.

Lemma list_entries_insert_live name data (store : gmap string entry) :
  data ≠ "" →
  list_entries (<[name := Live data]> store) = {[name]} ∪ list_entries store.
Proof.
  intros Hdata. apply set_eq. intros n.
  rewrite elem_of_union, elem_of_singleton, !elem_of_list_entries.
  destruct (decide (n = name)) as [->|Hne].
  - rewrite lookup_insert_eq. split; [by left|].
    intros _. by exists (Live data).
  - rewrite lookup_insert_ne by done. split; [by right|].
    by intros [?|?].
Qed.

(** X12: a dump that goes through adds to the listed entries of the store the
    one entry named by the content hash of the serialized object, or nothing
    when that entry is listed already; no other entry appears or
    disappears. *)
Theorem dump_lists_one_entry r key obj p p' s :
  find_suitable_serializer obj r = ok s →
  serialize s obj ≠ "" →
  dump r key obj p = ok p' →
  existing_pack_objects p' =
    {[content_hash (serialize s obj)]} ∪ existing_pack_objects p.
Proof.
  intros Hfind Hdata Hdump.
  destruct (dump_inv _ _ _ _ _ Hdump) as (Hfresh & _).
  rewrite (dump_ok _ _ _ _ s Hfresh Hfind) in Hdump.
  injection Hdump as <-. unfold existing_pack_objects. simpl.
  unfold put. case_decide as Hlisted; simpl.
  - apply set_eq. intros n. rewrite elem_of_union, elem_of_singleton.
    split; [by right|]. by intros [->|?].
  - by apply list_entries_insert_live.
Qed.
End more_composition.

Lemma register_accepting_then_find_witness :
  can_process any_codec PyOther = true ∧
  ∃ s', find_suitable_serializer PyOther (register_serializer any_codec reg).2 = ok s' ∧
        can_process s' PyOther = true ∧
        s' ∈ od_values (register_serializer any_codec reg).2.
Proof.
  split; [reflexivity|].
  apply (register_accepting_then_find any_codec reg PyOther). reflexivity.
Defined.

Lemma dump_lists_one_entry_witness :
  find_suitable_serializer obj2k reg = ok str_codec ∧
  serialize str_codec obj2k ≠ "" ∧
  existing_pack_objects two_objects_pack =
    {[obj2k_hash]} ∪ existing_pack_objects (run reg [Dump slot1 obj1k]).
Proof.
  assert (Hdata : serialize str_codec obj2k ≠ "") by discriminate.
  split_and!; [reflexivity | exact Hdata |].
  apply (dump_lists_one_entry reg slot2 obj2k (run reg [Dump slot1 obj1k])
           two_objects_pack str_codec); [reflexivity | exact Hdata | reflexivity].
Defined.
